(** * CirqBasedSimulator: the adapter between the generic wavefunction
      simulator interface and a Cirq-like simulation backend

    Source: src/orquestra/integrations/cirq/simulator/_base.py

    The adapter owns no numerics.  Everything it does is to call into
    libraries (the circuit conversion, the operator sparsification, Cirq's
    [with_noise], the wrapped simulator's [simulate], numpy) and to pass
    values between those calls.  The embedding therefore keeps the adapter's
    code as a program over _library calls_ and gives it a semantics for an
    arbitrary implementation of the libraries: a handler that answers each
    call with a value or an exception and may change the libraries' state.
    The properties proved below hold for every handler. *)

From Stdlib Require Import List String Arith Lia Bool.
Import ListNotations.

Set Implicit Arguments.

(** ** The types and constants of the libraries the adapter is linked with *)

(** The adapter is written against cirq, numpy and orquestra.quantum.  None of
    their types is inspected by the adapter, so they are the fields of an
    interface; [Exn] is the type of the exceptions the libraries raise and
    [LibState] the state they keep (the wrapped simulator's included). *)
Class Libraries : Type := {
  Float : Type;
  float_zero : Float;
  Gate : Type;
  I_gate : Gate;
  PauliTerm : Type;
  CirqCircuit : Type;
  NoiseModel : Type;
  ParamResolver : Type;
  QubitOrder : Type;
  QubitOrder_DEFAULT : QubitOrder;
  StateVector : Type;
  Complex64Array : Type;
  np_array_complex64 : StateVector -> Complex64Array;
  SimResult : Type;
  final_state_vector : SimResult -> StateVector;
  DensityMatrix : Type;
  Simulator : Type;
  Exn : Type;
  LibState : Type
}.

Section Adapter.

Context {L : Libraries}.

(** ** Numbers and arrays *)

(** A number held in a Python list or numpy array of the adapter: a float, or
    a complex number with its two float parts. *)
Inductive scalar : Type :=
| SFloat (x : Float)
| SComplex (re im : Float).

Definition real_part (v : scalar) : Float :=
  match v with
  | SFloat x => x
  | SComplex re _ => re
  end.

(** Modelled from the spec: numpy is a library outside the repository.
    [np.real] keeps a float and takes the real part of a complex number. *)
Definition np_real (v : scalar) : scalar := SFloat (real_part v).

Definition is_complex (v : scalar) : bool :=
  match v with
  | SFloat _ => false
  | SComplex _ _ => true
  end.

Definition is_real (v : scalar) : bool := negb (is_complex v).

Definition to_complex (v : scalar) : scalar :=
  match v with
  | SFloat x => SComplex x float_zero
  | SComplex re im => SComplex re im
  end.

(** Modelled from the spec: numpy is a library outside the repository.
    [np.asarray] of a list of numbers gives one array of a common dtype:
    complex as soon as one element is complex. *)
Definition np_asarray (values : list scalar) : list scalar :=
  if existsb is_complex values then map to_complex values else values.

(** Modelled from the spec: orquestra.quantum.measurements is a library
    outside the repository.  Of [ExpectationValues] only the field the adapter
    fills. *)
Record ExpectationValues : Type := { values : list scalar }.

(** Modelled from the spec: orquestra.quantum.measurements is a library
    outside the repository.  [expectation_values_to_real] discards the
    imaginary part of every complex value and keeps the floats. *)
Definition expectation_values_to_real (ev : ExpectationValues)
  : ExpectationValues :=
  {| values := map (fun v => if is_complex v then SFloat (real_part v) else v)
                   (values ev) |}.

(** The dense two-dimensional array [get_sparse_operator(...).toarray()]. *)
Record ndarray : Type := {
  nrows : nat;
  ncols : nat;
  entry : nat -> nat -> scalar
}.

(** [np.size]: the number of elements. *)
Definition np_size (a : ndarray) : nat := nrows a * ncols a.

(** ** Circuits of orquestra.quantum and the object store *)

Record Operation : Type := {
  gate : Gate;
  qubit_indices : list nat
}.

Record Circuit : Type := {
  operations : list Operation;
  n_qubits : nat
}.

(** [I(i)]: the identity gate on qubit [i]. *)
Definition I_on (i : nat) : Operation :=
  {| gate := I_gate; qubit_indices := [i] |}.

(** Modelled from the spec: orquestra.quantum.circuits is a library outside
    the repository.  [circuit + operation] builds a new circuit with the
    operation at the end, wide enough for the operation's qubits. *)
Definition circuit_add (c : Circuit) (op : Operation) : Circuit :=
  {| operations := operations c ++ [op];
     n_qubits := Nat.max (n_qubits c) (S (list_max (qubit_indices op))) |}.

(** Circuit objects live in a store and are passed around by reference. *)
Definition loc : Type := nat.

Record World : Type := {
  store : loc -> Circuit;
  next : loc;
  libs : LibState
}.

Definition update (st : loc -> Circuit) (l : loc) (c : Circuit)
  : loc -> Circuit :=
  fun l' => if Nat.eqb l' l then c else st l'.

(** ** Library calls *)

(** The keyword arguments of [simulate].  cirq's defaults are
    [param_resolver=None], [qubit_order=QubitOrder.DEFAULT] and
    [initial_state=None]. *)
Record SimulateArgs : Type := {
  program : CirqCircuit;
  sa_param_resolver : option ParamResolver;
  sa_qubit_order : QubitOrder;
  sa_initial_state : option Complex64Array
}.

Definition positional_only (program : CirqCircuit) : SimulateArgs :=
  {| program := program;
     sa_param_resolver := None;
     sa_qubit_order := QubitOrder_DEFAULT;
     sa_initial_state := None |}.

(** The calls the adapter makes into code that is not its own, indexed by the
    type of what they return. *)
Inductive LibCall : Type -> Type :=
| export_to_cirq (c : Circuit) : LibCall CirqCircuit
| get_sparse_operator (t : PauliTerm) (n : nat) : LibCall ndarray
| with_noise (cc : CirqCircuit) (nm : option NoiseModel) : LibCall CirqCircuit
| simulate (sim : Simulator) (a : SimulateArgs) : LibCall SimResult
| density_matrix_of (r : SimResult) : LibCall DensityMatrix
| trace_matmul (rho : DensityMatrix) (m : ndarray) : LibCall scalar.

(** A call together with its answer, as it is logged. *)
Inductive Event : Type :=
| EvExport (c : Circuit) (r : Exn + CirqCircuit)
| EvSparse (t : PauliTerm) (n : nat) (r : Exn + ndarray)
| EvWithNoise (cc : CirqCircuit) (nm : option NoiseModel)
    (r : Exn + CirqCircuit)
| EvSimulate (sim : Simulator) (a : SimulateArgs) (r : Exn + SimResult)
| EvDensity (res : SimResult) (r : Exn + DensityMatrix)
| EvTrace (rho : DensityMatrix) (m : ndarray) (r : Exn + scalar).

Definition event_of {X : Type} (c : LibCall X) : Exn + X -> Event :=
  match c in LibCall X return Exn + X -> Event with
  | export_to_cirq c => EvExport c
  | get_sparse_operator t n => EvSparse t n
  | with_noise cc nm => EvWithNoise cc nm
  | simulate sim a => EvSimulate sim a
  | density_matrix_of r => EvDensity r
  | trace_matmul rho m => EvTrace rho m
  end.

Definition is_export (e : Event) : bool :=
  match e with EvExport _ _ => true | _ => false end.

Definition is_simulate (e : Event) : bool :=
  match e with EvSimulate _ _ _ => true | _ => false end.

(** The answer logged with an event, with its value forgotten. *)
Definition raised_by (e : Event) : option Exn :=
  match e with
  | EvExport _ (inl x) | EvSparse _ _ (inl x) | EvWithNoise _ _ (inl x)
  | EvSimulate _ _ (inl x) | EvDensity _ (inl x) | EvTrace _ _ (inl x) => Some x
  | _ => None
  end.

Definition is_sparse (e : Event) : bool :=
  match e with EvSparse _ _ _ => true | _ => false end.

(** The arguments of the calls of [get_sparse_operator] in a log, in the
    order of the calls. *)
Definition sparsified (tr : list Event) : list (PauliTerm * nat) :=
  flat_map (fun e => match e with
                     | EvSparse t n _ => [(t, n)]
                     | _ => []
                     end) tr.

(** ** Programs *)

(** What the adapter raises by itself. *)
Inductive AdapterError : Type :=
| RuntimeError (msg : string).

(** How a call of the adapter can fail: with an exception of its own or with
    one that a library raised. *)
Inductive Failure : Type :=
| Raised (e : AdapterError)
| Propagated (e : Exn).

(** The adapter's code: straight-line Python over library calls and circuit
    objects.  There is no construct that catches an exception, as there is no
    [try] in the source. *)
Inductive prog (A : Type) : Type :=
| Ret (a : A)
| Raise (e : AdapterError)
| Call (X : Type) (c : LibCall X) (k : X -> prog A)
| Deref (l : loc) (k : Circuit -> prog A)
| Alloc (c : Circuit) (k : loc -> prog A).

Arguments Ret {A} a.
Arguments Raise {A} e.
Arguments Call {A X} c k.
Arguments Deref {A} l k.
Arguments Alloc {A} c k.

Fixpoint bind {A B : Type} (p : prog A) (f : A -> prog B) : prog B :=
  match p with
  | Ret a => f a
  | Raise e => Raise e
  | Call c k => Call c (fun x => bind (k x) f)
  | Deref l k => Deref l (fun c => bind (k c) f)
  | Alloc c k => Alloc c (fun l => bind (k l) f)
  end.

Definition call {X : Type} (c : LibCall X) : prog X := Call c Ret.
Definition deref (l : loc) : prog Circuit := Deref l Ret.
Definition alloc (c : Circuit) : prog loc := Alloc c Ret.

Notation "x <- p ;; q" := (bind p (fun x => q))
  (at level 61, p at next level, right associativity).

(** ** Semantics *)

(** An implementation of the libraries. *)
Definition Handler : Type :=
  forall X : Type, LibCall X -> LibState -> LibState * (Exn + X).

Record Outcome (A : Type) : Type := {
  final : World;
  trace : list Event;
  result : Failure + A
}.

Definition with_libs (w : World) (s : LibState) : World :=
  {| store := store w; next := next w; libs := s |}.

Definition with_object (w : World) (c : Circuit) : World :=
  {| store := update (store w) (next w) c; next := S (next w);
     libs := libs w |}.

Definition logged {A : Type} (e : Event) (o : Outcome A) : Outcome A :=
  {| final := final o; trace := e :: trace o; result := result o |}.

Fixpoint run {A : Type} (h : Handler) (p : prog A) (w : World) : Outcome A :=
  match p with
  | Ret a => {| final := w; trace := []; result := inr a |}
  | Raise e => {| final := w; trace := []; result := inl (Raised e) |}
  | Call c k =>
      let (s, r) := h _ c (libs w) in
      match r with
      | inl x =>
          {| final := with_libs w s; trace := [event_of c r];
             result := inl (Propagated x) |}
      | inr v => logged (event_of c r) (run h (k v) (with_libs w s))
      end
  | Deref l k => run h (k (store w l)) w
  | Alloc c k => run h (k (next w)) (with_object w c)
  end.

(** ** The adapter *)

Record CirqBasedSimulator : Type := {
  simulator : Simulator;
  noise_model : option NoiseModel;
  param_resolver : option ParamResolver;
  qubit_order : QubitOrder
}.

(** [__init__] with its defaults: [noise_model=None], [param_resolver=None],
    [qubit_order=cirq.ops.QubitOrder.DEFAULT]. *)
Definition init (simulator : Simulator) (noise_model : option NoiseModel)
    (param_resolver : option ParamResolver) (qubit_order : option QubitOrder)
  : CirqBasedSimulator :=
  {| simulator := simulator;
     noise_model := noise_model;
     param_resolver := param_resolver;
     qubit_order := match qubit_order with
                    | Some q => q
                    | None => QubitOrder_DEFAULT
                    end |}.

Definition _extract_density_matrix (self : CirqBasedSimulator)
    (res : SimResult) : prog DensityMatrix :=
  call (density_matrix_of res).

(** The body of the loop over [qubit_operator.terms], up to the value that is
    appended to [values]. *)
Definition term_expectation (self : CirqBasedSimulator)
    (circuit : loc) (cirq_circuit : CirqCircuit) (pauli_term : PauliTerm)
  : prog scalar :=
  c <- deref circuit ;;
  sparse_pauli_term_ndarray <- call (get_sparse_operator pauli_term (n_qubits c)) ;;
  if Nat.eqb (np_size sparse_pauli_term_ndarray) 1 then
    Ret (entry sparse_pauli_term_ndarray 0 0)
  else
    noisy_circuit <- call (with_noise cirq_circuit (noise_model self)) ;;
    res <- call (simulate (simulator self) (positional_only noisy_circuit)) ;;
    rho <- _extract_density_matrix self res ;;
    x <- call (trace_matmul rho sparse_pauli_term_ndarray) ;;
    Ret (np_real x).

Fixpoint for_terms (self : CirqBasedSimulator)
    (circuit : loc) (cirq_circuit : CirqCircuit) (terms : list PauliTerm)
    (values : list scalar) : prog (list scalar) :=
  match terms with
  | [] => Ret values
  | pauli_term :: rest =>
      expectation_value <-
        term_expectation self circuit cirq_circuit pauli_term ;;
      for_terms self circuit cirq_circuit rest
                (values ++ [expectation_value])
  end.

Definition noise_model_message : string :=
  "Please provide noise model to get exact noisy expectation values".

Definition get_exact_noisy_expectation_values (self : CirqBasedSimulator)
    (circuit : loc) (qubit_operator : list PauliTerm)
  : prog ExpectationValues :=
  match noise_model self with
  | None => Raise (RuntimeError noise_model_message)
  | Some _ =>
      c <- deref circuit ;;
      cirq_circuit <- call (export_to_cirq c) ;;
      values <- for_terms self circuit cirq_circuit qubit_operator [] ;;
      Ret (expectation_values_to_real {| values := np_asarray values |})
  end.

(** Modelled from the spec: orquestra.quantum.circuits is a library outside
    the repository.  [circuit += I(i)]: [Circuit] has no in-place addition,
    so the statement is [circuit = circuit + I(i)]: a new object, and the
    local name rebound to it. *)
Definition circuit_iadd (circuit : loc) (op : Operation) : prog loc :=
  c <- deref circuit ;;
  alloc (circuit_add c op).

Fixpoint add_identities (circuit : loc) (indices : list nat) : prog loc :=
  match indices with
  | [] => Ret circuit
  | i :: rest =>
      circuit' <- circuit_iadd circuit (I_on i) ;;
      add_identities circuit' rest
  end.

Definition _get_wavefunction_from_native_circuit (self : CirqBasedSimulator)
    (circuit : loc) (initial_state : StateVector) : prog StateVector :=
  c0 <- deref circuit ;;
  circuit <- add_identities circuit (seq 0 (n_qubits c0)) ;;
  c <- deref circuit ;;
  cirq_circuit <- call (export_to_cirq c) ;;
  let initial_state := np_array_complex64 initial_state in
  simulated_result <-
    call (simulate (simulator self)
            {| program := cirq_circuit;
               sa_param_resolver := param_resolver self;
               sa_qubit_order := qubit_order self;
               sa_initial_state := Some initial_state |}) ;;
  Ret (final_state_vector simulated_result).

(** The circuit that reaches the conversion in the wavefunction path: the
    caller's circuit with [I(0)], ..., [I(n_qubits - 1)] added one by one. *)
Definition padded (c : Circuit) : Circuit :=
  fold_left circuit_add (map I_on (seq 0 (n_qubits c))) c.

(** A qubit is active in a circuit when some operation acts on it. *)
Definition active (c : Circuit) (q : nat) : Prop :=
  exists op, In op (operations c) /\ In q (qubit_indices op).

(** ** The shape of the logs of the noisy path *)

(** What one round of the loop over the terms can log, with the value it
    appends to [values] or the exception that ends it.  [n] is the circuit's
    number of qubits, [cc] the converted circuit. *)
Inductive term_trace (sim : Simulator) (nm : option NoiseModel) (n : nat)
    (cc : CirqCircuit) (t : PauliTerm)
  : list Event -> Failure + scalar -> Prop :=
| sparse_raises x :
    term_trace sim nm n cc t [EvSparse t n (inl x)] (inl (Propagated x))
| constant_term m :
    np_size m = 1 ->
    term_trace sim nm n cc t [EvSparse t n (inr m)] (inr (entry m 0 0))
| with_noise_raises m x :
    np_size m <> 1 ->
    term_trace sim nm n cc t
      [EvSparse t n (inr m); EvWithNoise cc nm (inl x)]
      (inl (Propagated x))
| simulate_raises m noisy x :
    np_size m <> 1 ->
    term_trace sim nm n cc t
      [EvSparse t n (inr m); EvWithNoise cc nm (inr noisy);
       EvSimulate sim (positional_only noisy) (inl x)]
      (inl (Propagated x))
| density_raises m noisy res x :
    np_size m <> 1 ->
    term_trace sim nm n cc t
      [EvSparse t n (inr m); EvWithNoise cc nm (inr noisy);
       EvSimulate sim (positional_only noisy) (inr res);
       EvDensity res (inl x)]
      (inl (Propagated x))
| trace_raises m noisy res rho x :
    np_size m <> 1 ->
    term_trace sim nm n cc t
      [EvSparse t n (inr m); EvWithNoise cc nm (inr noisy);
       EvSimulate sim (positional_only noisy) (inr res);
       EvDensity res (inr rho); EvTrace rho m (inl x)]
      (inl (Propagated x))
| simulated_term m noisy res rho x :
    np_size m <> 1 ->
    term_trace sim nm n cc t
      [EvSparse t n (inr m); EvWithNoise cc nm (inr noisy);
       EvSimulate sim (positional_only noisy) (inr res);
       EvDensity res (inr rho); EvTrace rho m (inr x)]
      (inr (np_real x)).

(** The rounds of the loop, one after the other, until the terms are used up
    or a round raises: the log of each round and the value it appended. *)
Inductive loop_trace (sim : Simulator) (nm : option NoiseModel) (n : nat)
    (cc : CirqCircuit)
  : list PauliTerm -> list (list Event) -> Failure + list scalar -> Prop :=
| loop_done : loop_trace sim nm n cc [] [] (inr [])
| loop_raises t ts blk e :
    term_trace sim nm n cc t blk (inl e) ->
    loop_trace sim nm n cc (t :: ts) [blk] (inl e)
| loop_round_raises t ts blk v blks e :
    term_trace sim nm n cc t blk (inr v) ->
    loop_trace sim nm n cc ts blks (inl e) ->
    loop_trace sim nm n cc (t :: ts) (blk :: blks) (inl e)
| loop_round t ts blk v blks vs :
    term_trace sim nm n cc t blk (inr v) ->
    loop_trace sim nm n cc ts blks (inr vs) ->
    loop_trace sim nm n cc (t :: ts) (blk :: blks) (inr (v :: vs)).

(** Three lists of one length, related element by element. *)
Inductive Forall3 {A B C : Type} (R : A -> B -> C -> Prop)
  : list A -> list B -> list C -> Prop :=
| Forall3_nil : Forall3 R [] [] []
| Forall3_cons a b c la lb lc :
    R a b c -> Forall3 R la lb lc ->
    Forall3 R (a :: la) (b :: lb) (c :: lc).

End Adapter.

Arguments Ret {L A} a.
Arguments Raise {L A} e.
Arguments Call {L A X} c k.
Arguments Deref {L A} l k.
Arguments Alloc {L A} c k.

Unset Implicit Arguments.

(** ** A small implementation of the libraries, to run the adapter on *)

Module Toy.

Local Open Scope string_scope.

(** Floats are integers here; a converted circuit is the list of its gate
    names, with the name of the noise model at the end once noise is added;
    the state the libraries keep is the number of simulations run so far. *)
#[export] Instance libraries : Libraries := {|
  Float := nat;
  float_zero := 0;
  Gate := string;
  I_gate := "I";
  PauliTerm := string;
  CirqCircuit := list string;
  NoiseModel := string;
  ParamResolver := list (string * nat);
  QubitOrder := list nat;
  QubitOrder_DEFAULT := [];
  StateVector := list nat;
  Complex64Array := list nat;
  np_array_complex64 := fun v => v;
  SimResult := list nat;
  final_state_vector := fun r => r;
  DensityMatrix := list nat;
  Simulator := string;
  Exn := string;
  LibState := nat
|}.

(** The matrix of a term on [n] qubits: the coefficient on the diagonal of a
    [2^n] by [2^n] array.  The term ["1j"] has the coefficient [i], every
    other term the coefficient [1]. *)
Definition coefficient (t : string) : scalar :=
  if String.eqb t "1j" then SComplex 0 1 else SComplex 1 0.

Definition sparse (t : string) (n : nat) : ndarray :=
  {| nrows := 2 ^ n;
     ncols := 2 ^ n;
     entry := fun i j => if Nat.eqb i j then coefficient t
                         else SComplex 0 0 |}.

(** Every call succeeds, except the conversion of a circuit with a gate named
    ["bad"] and the simulation of a circuit with a gate named ["crash"]. *)
Definition handler : Handler :=
  fun X c =>
    match c in LibCall X return nat -> nat * (string + X) with
    | export_to_cirq c => fun s =>
        if existsb (String.eqb "bad") (map gate (operations c))
        then (s, inl "ValueError")
        else (s, inr (map gate (operations c)))
    | get_sparse_operator t n => fun s => (s, inr (sparse t n))
    | with_noise cc nm => fun s =>
        (s, inr (cc ++ match nm with Some m => [m] | None => [] end)%list)
    | simulate sim a => fun s =>
        if existsb (String.eqb "crash") (program a)
        then (S s, inl "SimulatorError")
        else (S s, inr [List.length (program a)])
    | density_matrix_of r => fun s => (s, inr r)
    | trace_matmul rho m => fun s => (s, inr (SComplex 2 3))
    end.

Definition op (g : string) (qs : list nat) : Operation :=
  {| gate := g; qubit_indices := qs |}.

(** A circuit on two qubits with one gate, on qubit 1, that has the symbolic
    parameter [theta]. *)
Definition rx_theta : Circuit :=
  {| operations := [op "RX(theta)" [1]]; n_qubits := 2 |}.

(** The empty circuit: no qubits. *)
Definition empty : Circuit := {| operations := []; n_qubits := 0 |}.

Definition crashing : Circuit :=
  {| operations := [op "crash" [0]]; n_qubits := 1 |}.

(** A store with the three circuits at the locations 0, 1 and 2. *)
Definition world : World :=
  {| store := fun l => match l with
                       | 0 => rx_theta
                       | 1 => empty
                       | _ => crashing
                       end;
     next := 3;
     libs := 0 |}.

Definition noisy : CirqBasedSimulator :=
  init "density-matrix-simulator" (Some "depolarize")
       (Some [("theta", 1)]) None.

Definition noiseless : CirqBasedSimulator :=
  init "simulator" None (Some [("theta", 1)]) None.

End Toy.

(** * Properties *)

Section Semantics.

Context {L : Libraries}.
Variable h : Handler.

(** ** Running programs *)

Lemma run_bind (A B : Type) (p : prog A) (f : A -> prog B) (w : World) :
  run h (bind p f) w =
  match result (run h p w) with
  | inl e => {| final := final (run h p w); trace := trace (run h p w);
                result := inl e |}
  | inr a =>
      {| final := final (run h (f a) (final (run h p w)));
         trace := trace (run h p w) ++ trace (run h (f a) (final (run h p w)));
         result := result (run h (f a) (final (run h p w))) |}
  end.
Proof.
  revert w; induction p as [a | e | X c k IH | l k IH | c k IH]; intros w;
    simpl.
  - destruct (run h (f a) w); reflexivity.
  - reflexivity.
  - destruct (h X c (libs w)) as [s [x | v]]; simpl; [reflexivity |].
    rewrite IH.
    destruct (result (run h (k v) (with_libs w s))); reflexivity.
  - apply IH.
  - apply IH.
Qed.

Lemma raised_by_exception (X : Type) (c : LibCall X) (x : Exn) :
  raised_by (event_of c (inl x)) = Some x.
Proof. destruct c; reflexivity. Qed.

Lemma raised_by_value (X : Type) (c : LibCall X) (v : X) :
  raised_by (event_of c (inr v)) = None.
Proof. destruct c; reflexivity. Qed.

(** No program runs on after a library call has raised, and the exception is
    what the program ends with. *)
Lemma run_stops_at_exception (A : Type) (p : prog A) (w : World)
    (pre post : list Event) (e : Event) (x : Exn) :
  trace (run h p w) = pre ++ e :: post ->
  raised_by e = Some x ->
  post = [] /\ result (run h p w) = inl (Propagated x).
Proof.
  revert w pre; induction p as [a | e' | X c k IH | l k IH | c k IH];
    intros w pre Htr He; simpl in *.
  - destruct pre; discriminate.
  - destruct pre; discriminate.
  - destruct (h X c (libs w)) as [s [y | v]]; simpl in *.
    + destruct pre as [| e0 [| e1 pre]]; try discriminate.
      injection Htr as <- <-.
      rewrite raised_by_exception in He. injection He as ->. auto.
    + destruct pre as [| e0 pre].
      * injection Htr as <- _.
        rewrite raised_by_value in He. discriminate.
      * injection Htr as _ Htr. eapply IH; eassumption.
  - eapply IH; eassumption.
  - eapply IH; eassumption.
Qed.

(** A program fails either by a [raise] of its own, after library calls that
    all returned, or with the exception of its last library call. *)
Lemma run_failure_origin (A : Type) (p : prog A) (w : World) (f : Failure) :
  result (run h p w) = inl f ->
  (exists e, f = Raised e /\
             Forall (fun ev => raised_by ev = None) (trace (run h p w))) \/
  (exists pre ev x, trace (run h p w) = pre ++ [ev] /\
                    raised_by ev = Some x /\ f = Propagated x).
Proof.
  revert w; induction p as [a | e' | X c k IH | l k IH | c k IH];
    intros w Hres; simpl in *.
  - discriminate.
  - injection Hres as <-. left. eauto.
  - destruct (h X c (libs w)) as [s [y | v]]; simpl in *.
    + injection Hres as <-. right.
      exists [], (event_of c (inl y)), y.
      auto using raised_by_exception.
    + destruct (IH _ _ Hres) as [(e & -> & Hall) | (pre & ev & x & -> & He & ->)].
      * left. exists e. split; [reflexivity |].
        constructor; [apply raised_by_value | assumption].
      * right. exists (event_of c (inr v) :: pre), ev, x. auto.
  - apply IH; assumption.
  - apply IH; assumption.
Qed.

(** ** The noisy path *)

Section Noisy.

Variables (self : CirqBasedSimulator) (circuit : loc).

Lemma run_term_expectation (cc : CirqCircuit) (t : PauliTerm) (w : World) :
  let o := run h (term_expectation self circuit cc t) w in
  term_trace (simulator self) (noise_model self)
             (n_qubits (store w circuit)) cc t (trace o) (result o) /\
  store (final o) = store w /\ next (final o) = next w.
Proof.
  unfold term_expectation, _extract_density_matrix; simpl.
  destruct (h _ (get_sparse_operator t (n_qubits (store w circuit))) (libs w))
    as [s1 [x | m]]; simpl.
  { repeat split; constructor. }
  destruct (Nat.eqb_spec (np_size m) 1) as [Hm | Hm]; simpl.
  { repeat split; constructor; assumption. }
  destruct (h _ (with_noise cc (noise_model self)) s1) as [s2 [x | noisy]];
    simpl.
  { repeat split; constructor; assumption. }
  destruct (h _ (simulate (simulator self) (positional_only noisy)) s2)
    as [s3 [x | res]]; simpl.
  { repeat split; constructor; assumption. }
  destruct (h _ (density_matrix_of res) s3) as [s4 [x | rho]]; simpl.
  { repeat split; constructor; assumption. }
  destruct (h _ (trace_matmul rho m) s4) as [s5 [x | v]]; simpl.
  { repeat split; constructor; assumption. }
  repeat split; constructor; assumption.
Qed.

Lemma run_for_terms (cc : CirqCircuit) (ts : list PauliTerm)
    (acc : list scalar) (w : World) :
  let o := run h (for_terms self circuit cc ts acc) w in
  exists blks res,
    trace o = List.concat blks /\
    loop_trace (simulator self) (noise_model self)
               (n_qubits (store w circuit)) cc ts blks res /\
    result o = match res with
               | inl e => inl e
               | inr vs => inr (acc ++ vs)
               end /\
    store (final o) = store w /\ next (final o) = next w.
Proof.
  revert acc w; induction ts as [| t ts IH]; intros acc w; cbn [for_terms].
  - exists [], (inr []). simpl. rewrite app_nil_r. repeat split. constructor.
  - rewrite run_bind.
    destruct (run_term_expectation cc t w) as (Ht & Hst & Hnx).
    set (o1 := run h (term_expectation self circuit cc t) w) in *.
    destruct (result o1) as [e | v] eqn:Hres; cbn [final trace result].
    + exists [trace o1], (inl e).
      cbn [List.concat]. rewrite app_nil_r. repeat split; try assumption.
      constructor; assumption.
    + destruct (IH (acc ++ [v]) (final o1))
        as (blks & res & Htr & Hloop & Hr & Hst' & Hnx').
      rewrite Hst in Hloop.
      exists (trace o1 :: blks).
      destruct res as [e | vs].
      * exists (inl e). cbn [List.concat]. rewrite Htr, Hr.
        repeat split; try congruence.
        econstructor; eassumption.
      * exists (inr (v :: vs)). cbn [List.concat].
        rewrite Htr, Hr, <- app_assoc.
        repeat split; try congruence.
        constructor; assumption.
Qed.

(** The whole log of the noisy path: the conversion first, then the rounds
    of the loop. *)
Lemma run_noisy (nm : NoiseModel) (ts : list PauliTerm) (w : World) :
  noise_model self = Some nm ->
  let o := run h (get_exact_noisy_expectation_values self circuit ts) w in
  exists r blks,
    trace o = EvExport (store w circuit) r :: List.concat blks /\
    match r with
    | inl x => blks = [] /\ result o = inl (Propagated x)
    | inr cc =>
        exists res,
          loop_trace (simulator self) (Some nm) (n_qubits (store w circuit))
                     cc ts blks res /\
          result o =
            match res with
            | inl e => inl e
            | inr vs =>
                inr (expectation_values_to_real {| values := np_asarray vs |})
            end
    end /\
    store (final o) = store w /\ next (final o) = next w.
Proof.
  intros Hnm; unfold get_exact_noisy_expectation_values; rewrite Hnm.
  cbn [deref bind run call].
  destruct (h _ (export_to_cirq (store w circuit)) (libs w)) as [s [x | cc]];
    cbn [logged final trace result].
  - exists (inl x), []. auto.
  - rewrite run_bind.
    destruct (run_for_terms cc ts [] (with_libs w s))
      as (blks & res & Htr & Hloop & Hr & Hst & Hnx).
    rewrite Hnm in Hloop.
    exists (inr cc), blks. rewrite Hr.
    destruct res as [e | vs]; simpl.
    + rewrite Htr. repeat split; try assumption. exists (inl e). auto.
    + rewrite Htr, app_nil_r. repeat split; try assumption.
      exists (inr vs). auto.
Qed.

End Noisy.

(** ** Where an event sits in the log of the noisy path *)

Lemma cons_eq_app_cons (A : Type) (x e : A) (l b b2 : list A) :
  x :: l = b ++ e :: b2 ->
  (b = [] /\ x = e /\ l = b2) \/ (exists b', b = x :: b' /\ l = b' ++ e :: b2).
Proof.
  destruct b as [| y b]; simpl; intros H; injection H as -> ->; eauto.
Qed.

Ltac find_event Hb :=
  match type of Hb with
  | [] = _ ++ _ :: _ => destruct (app_cons_not_nil _ _ _ Hb)
  | _ :: _ = _ ++ _ :: _ =>
      let Hx := fresh "Hx" in
      let b' := fresh "b" in
      apply cons_eq_app_cons in Hb;
      destruct Hb as [(-> & Hx & <-) | (b' & -> & Hb)];
      [ try discriminate Hx; try (injection Hx as; subst) | find_event Hb ]
  end.

Section Blocks.

Variables (sim : Simulator) (nm : option NoiseModel) (n : nat)
  (cc : CirqCircuit).

Lemma term_simulate_context t b1 b2 res sim' a r :
  term_trace sim nm n cc t (b1 ++ EvSimulate sim' a r :: b2) res ->
  exists m noisy,
    b1 = [EvSparse t n (inr m); EvWithNoise cc nm (inr noisy)] /\
    a = positional_only noisy /\ sim' = sim.
Proof.
  remember (b1 ++ EvSimulate sim' a r :: b2) as blk eqn:Hb.
  destruct 1; find_event Hb; eauto.
Qed.

Lemma term_density_context t b1 b2 res sr x :
  term_trace sim nm n cc t (b1 ++ EvDensity sr x :: b2) res ->
  exists m noisy,
    b1 = [EvSparse t n (inr m); EvWithNoise cc nm (inr noisy);
          EvSimulate sim (positional_only noisy) (inr sr)].
Proof.
  remember (b1 ++ EvDensity sr x :: b2) as blk eqn:Hb.
  destruct 1; find_event Hb; eauto.
Qed.


Lemma term_trace_no_export t blk res :
  term_trace sim nm n cc t blk res ->
  forallb (fun e => negb (is_export e)) blk = true.
Proof. destruct 1; reflexivity. Qed.

Lemma term_trace_starts t blk res :
  term_trace sim nm n cc t blk res ->
  exists r rest, blk = EvSparse t n r :: rest.
Proof. destruct 1; eauto. Qed.

(** Every event of the loop's log lies in the log of one round. *)
Lemma loop_trace_split ts blks res pre e post :
  loop_trace sim nm n cc ts blks res ->
  List.concat blks = pre ++ e :: post ->
  exists pre0 b1 b2 post0 t r,
    pre = pre0 ++ b1 /\ post = b2 ++ post0 /\
    term_trace sim nm n cc t (b1 ++ e :: b2) r.
Proof.
  intros Hloop; revert pre.
  assert (Hcons : forall t blk r blks' pre,
    term_trace sim nm n cc t blk r ->
    (forall pre', List.concat blks' = pre' ++ e :: post ->
       exists pre0 b1 b2 post0 t r,
         pre' = pre0 ++ b1 /\ post = b2 ++ post0 /\
         term_trace sim nm n cc t (b1 ++ e :: b2) r) ->
    blk ++ List.concat blks' = pre ++ e :: post ->
    exists pre0 b1 b2 post0 t r,
      pre = pre0 ++ b1 /\ post = b2 ++ post0 /\
      term_trace sim nm n cc t (b1 ++ e :: b2) r).
  { intros t blk r blks' pre Ht IH Heq.
    apply app_eq_app in Heq as [l [[Hblk Hl] | [Hpre Hl]]].
    - destruct l as [| e' l].
      + simpl in Hl. rewrite app_nil_r in Hblk. subst blk.
        destruct (IH [] (eq_sym Hl))
          as (pre0 & b1 & b2 & post0 & t' & r' & Hp & Hq & Ht').
        symmetry in Hp. apply app_eq_nil in Hp as [-> ->].
        exists pre, [], b2, post0, t', r'.
        rewrite app_nil_r. auto.
      + injection Hl as <- ->. subst blk.
        exists [], pre, l, (List.concat blks'), t, r. auto.
    - destruct (IH l Hl)
        as (pre0 & b1 & b2 & post0 & t' & r' & Hp & Hq & Ht').
      exists (blk ++ pre0), b1, b2, post0, t', r'.
      subst. rewrite app_assoc. auto. }
  induction Hloop as [| t ts blk e0 Ht | t ts blk v blks e0 Ht Hloop IH
                        | t ts blk v blks vs Ht Hloop IH];
    intros pre Heq; cbn [List.concat] in Heq.
  - destruct pre; discriminate.
  - eapply (Hcons t blk _ [] pre Ht); [| exact Heq].
    intros pre' H'. destruct pre'; discriminate.
  - eapply Hcons; eauto.
  - eapply Hcons; eauto.
Qed.

Lemma loop_trace_no_export ts blks res :
  loop_trace sim nm n cc ts blks res ->
  forallb (fun e => negb (is_export e)) (List.concat blks) = true.
Proof.
  induction 1; cbn [List.concat]; rewrite ?forallb_app, ?app_nil_r;
    try reflexivity;
    repeat match goal with
           | H : term_trace _ _ _ _ _ _ _ |- _ =>
               apply term_trace_no_export in H; rewrite H
           end; auto.
Qed.

(** A loop that ran to its end appended one value per term, in order. *)
Lemma loop_trace_rounds ts blks vs :
  loop_trace sim nm n cc ts blks (inr vs) ->
  Forall3 (fun t blk v => term_trace sim nm n cc t blk (inr v)) ts blks vs.
Proof.
  revert blks vs; induction ts as [| t ts IH]; intros blks vs H;
    inversion H; subst; constructor; auto.
Qed.

End Blocks.

(** ** Numbers *)

Lemma realified (vs : list scalar) :
  values (expectation_values_to_real {| values := np_asarray vs |}) =
  map np_real vs.
Proof.
  unfold expectation_values_to_real, np_asarray; simpl.
  destruct (existsb is_complex vs).
  - rewrite map_map. apply map_ext. intros [x | re im]; reflexivity.
  - apply map_ext. intros [x | re im]; reflexivity.
Qed.

(** ** Circuits *)

Lemma fold_circuit_add_operations (ops : list Operation) (c : Circuit) :
  operations (fold_left circuit_add ops c) = operations c ++ ops.
Proof.
  revert c; induction ops as [| op ops IH]; intros c; simpl.
  - symmetry; apply app_nil_r.
  - rewrite IH. simpl. rewrite <- app_assoc. reflexivity.
Qed.

Lemma fold_identities_n_qubits (indices : list nat) (c : Circuit) :
  Forall (fun i => i < n_qubits c) indices ->
  n_qubits (fold_left circuit_add (map I_on indices) c) = n_qubits c.
Proof.
  revert c; induction indices as [| i indices IH]; intros c Hall; simpl.
  - reflexivity.
  - inversion Hall as [| ? ? Hi Hrest]; subst.
    assert (Hn : n_qubits (circuit_add c (I_on i)) = n_qubits c).
    { simpl. lia. }
    rewrite IH; [exact Hn |]. rewrite Hn. assumption.
Qed.

Lemma padded_operations (c : Circuit) :
  operations (padded c) = operations c ++ map I_on (seq 0 (n_qubits c)).
Proof. apply fold_circuit_add_operations. Qed.

Lemma padded_n_qubits (c : Circuit) : n_qubits (padded c) = n_qubits c.
Proof.
  apply fold_identities_n_qubits, Forall_forall.
  intros i Hi. apply in_seq in Hi. lia.
Qed.

Lemma padded_active (c : Circuit) (q : nat) :
  q < n_qubits (padded c) -> active (padded c) q.
Proof.
  rewrite padded_n_qubits. intros Hq. exists (I_on q). split.
  - rewrite padded_operations. apply in_or_app. right.
    apply in_map, in_seq. lia.
  - simpl. auto.
Qed.

(** ** The wavefunction path *)

Lemma run_add_identities (indices : list nat) (circuit : loc) (w : World) :
  let o := run h (add_identities circuit indices) w in
  trace o = [] /\
  libs (final o) = libs w /\
  next (final o) = next w + List.length indices /\
  (forall l, l < next w -> store (final o) l = store w l) /\
  exists l,
    result o = inr l /\
    (indices = [] -> l = circuit) /\
    (indices <> [] -> next w <= l) /\
    store (final o) l =
      fold_left circuit_add (map I_on indices) (store w circuit).
Proof.
  revert circuit w; induction indices as [| i indices IH]; intros circuit w.
  - simpl. repeat split; auto. exists circuit. repeat split; auto.
    congruence.
  - cbn [add_identities circuit_iadd deref alloc bind run].
    specialize (IH (next w) (with_object w (circuit_add (store w circuit) (I_on i)))).
    cbv zeta in IH.
    destruct IH as (Htr & Hlibs & Hnx & Hframe & l & Hres & Hnil & Hcons & Hst).
    cbv zeta. repeat split.
    + assumption.
    + assumption.
    + rewrite Hnx. simpl. lia.
    + intros l' Hl'. rewrite Hframe by (simpl; lia).
      simpl. unfold update.
      destruct (Nat.eqb_spec l' (next w)); [lia | reflexivity].
    + exists l. repeat split.
      * assumption.
      * discriminate.
      * intros _. destruct indices as [| j indices].
        -- rewrite (Hnil eq_refl). simpl. lia.
        -- assert (next (with_object w (circuit_add (store w circuit) (I_on i))) <= l)
             by (apply Hcons; discriminate).
           simpl in *. lia.
      * rewrite Hst. simpl. unfold update. rewrite Nat.eqb_refl. reflexivity.
Qed.

Lemma run_wavefunction (self : CirqBasedSimulator) (circuit : loc)
    (initial_state : StateVector) (w : World) :
  let o := run h (_get_wavefunction_from_native_circuit
                    self circuit initial_state) w in
  let a cc := {| program := cc;
                 sa_param_resolver := param_resolver self;
                 sa_qubit_order := qubit_order self;
                 sa_initial_state := Some (np_array_complex64 initial_state) |} in
  (exists r,
     match r with
     | inl x =>
         trace o = [EvExport (padded (store w circuit)) (inl x)] /\
         result o = inl (Propagated x)
     | inr cc =>
         exists r2,
           trace o = [EvExport (padded (store w circuit)) (inr cc);
                      EvSimulate (simulator self) (a cc) r2] /\
           result o = match r2 with
                      | inl x => inl (Propagated x)
                      | inr res => inr (final_state_vector res)
                      end
     end) /\
  (forall l, l < next w -> store (final o) l = store w l) /\
  next (final o) = next w + n_qubits (store w circuit).
Proof.
  unfold _get_wavefunction_from_native_circuit.
  cbn [deref bind run].
  rewrite run_bind.
  destruct (run_add_identities (seq 0 (n_qubits (store w circuit))) circuit w)
    as (Htr & Hlibs & Hnx & Hframe & l & Hres & _ & _ & Hst).
  set (o1 := run h (add_identities circuit (seq 0 (n_qubits (store w circuit)))) w) in *.
  rewrite Hres, Htr. cbn [final trace result app bind run call].
  rewrite Hst. fold (padded (store w circuit)).
  rewrite length_seq in Hnx.
  destruct (h _ (export_to_cirq (padded (store w circuit))) (libs (final o1)))
    as [s1 [x | cc]]; cbn [logged final trace result with_libs store next].
  { split; [exists (inl x); auto | auto]. }
  match goal with
  | |- context [h _ (simulate ?s ?args) ?st] =>
      destruct (h _ (simulate s args) st) as [s2 [x | res]]
  end; cbn [logged final trace result with_libs store next].
  - split; [exists (inr cc); exists (inl x); auto | auto].
  - split; [exists (inr cc); exists (inr res); auto | auto].
Qed.

(** ** Failures of the noisy path *)

Lemma term_trace_failure sim nm n cc t blk e :
  term_trace sim nm n cc t blk (inl e) -> exists x, e = Propagated x.
Proof. inversion 1; eauto. Qed.

Lemma loop_trace_failure sim nm n cc ts blks e :
  loop_trace sim nm n cc ts blks (inl e) -> exists x, e = Propagated x.
Proof.
  remember (inl e) as res eqn:Hres.
  induction 1; try discriminate; auto.
  injection Hres as <-. eapply term_trace_failure; eassumption.
Qed.

Lemma run_noisy_without_model self circuit ts w :
  noise_model self = None ->
  run h (get_exact_noisy_expectation_values self circuit ts) w =
  {| final := w; trace := [];
     result := inl (Raised (RuntimeError noise_model_message)) |}.
Proof.
  intros Hnm. unfold get_exact_noisy_expectation_values. rewrite Hnm.
  reflexivity.
Qed.

Lemma run_noisy_raised self circuit ts w e :
  result (run h (get_exact_noisy_expectation_values self circuit ts) w)
    = inl (Raised e) ->
  noise_model self = None.
Proof.
  destruct (noise_model self) as [nm |] eqn:Hnm; [| reflexivity].
  intros Hres.
  destruct (run_noisy self circuit nm ts w Hnm)
    as (r & blks & _ & Hr & _).
  destruct r as [x | cc].
  - destruct Hr as [_ Hr]. rewrite Hr in Hres. discriminate.
  - destruct Hr as ([e' | vs] & Hloop & Hr); rewrite Hr in Hres;
      [| discriminate].
    apply loop_trace_failure in Hloop as [x ->]. discriminate.
Qed.

(** An event at position [i] of a list splits the list around it. *)
Lemma nth_error_firstn (A : Type) (l : list A) (i : nat) (e : A) :
  nth_error l i = Some e -> l = firstn i l ++ e :: skipn (S i) l.
Proof.
  revert l; induction i as [| i IH]; intros [| x l] H; try discriminate.
  - injection H as ->. reflexivity.
  - simpl. f_equal. apply IH. exact H.
Qed.

(** Every event of the noisy path's log after the first lies in the log of
    one round of the loop, and the first is the conversion, which
    returned. *)
Lemma noisy_event_round self circuit ts w i e :
  let o := run h (get_exact_noisy_expectation_values self circuit ts) w in
  nth_error (trace o) i = Some e ->
  is_export e = false ->
  exists nm cc pre0 b1 b2 t r,
    noise_model self = Some nm /\
    hd_error (trace o) = Some (EvExport (store w circuit) (inr cc)) /\
    firstn i (trace o) = EvExport (store w circuit) (inr cc) :: pre0 ++ b1 /\
    term_trace (simulator self) (Some nm) (n_qubits (store w circuit)) cc t
               (b1 ++ e :: b2) r.
Proof.
  intros o Hi He.
  destruct (noise_model self) as [nm |] eqn:Hnm.
  2:{ subst o. rewrite (run_noisy_without_model _ _ _ _ Hnm) in Hi.
      destruct i; discriminate. }
  destruct (run_noisy self circuit nm ts w Hnm)
    as (r & blks & Htr & Hr & _).
  fold o in Htr, Hr.
  destruct i as [| i].
  { rewrite Htr in Hi. injection Hi as <-. discriminate. }
  rewrite Htr in Hi.
  cbn [nth_error] in Hi.
  destruct r as [x | cc].
  { destruct Hr as [-> _]. destruct i; discriminate. }
  destruct Hr as (res & Hloop & _).
  pose proof (nth_error_firstn _ _ _ _ Hi) as Hblk.
  destruct (loop_trace_split _ _ _ _ _ _ _ _ _ _ Hloop Hblk)
    as (pre0 & b1 & b2 & post0 & t & r & Hpre & _ & Ht).
  exists nm, cc, pre0, b1, b2, t, r.
  rewrite Htr. cbn [hd_error firstn]. rewrite Hpre. auto.
Qed.

(** A call of the noisy path that returned went through the conversion and
    through every round of the loop. *)
Lemma run_noisy_success self circuit ts w ev :
  let o := run h (get_exact_noisy_expectation_values self circuit ts) w in
  result o = inr ev ->
  exists nm cc blks vs,
    noise_model self = Some nm /\
    trace o = EvExport (store w circuit) (inr cc) :: List.concat blks /\
    loop_trace (simulator self) (Some nm) (n_qubits (store w circuit)) cc
               ts blks (inr vs) /\
    values ev = map np_real vs.
Proof.
  intros o Hres.
  destruct (noise_model self) as [nm |] eqn:Hnm.
  2:{ subst o. rewrite (run_noisy_without_model _ _ _ _ Hnm) in Hres.
      discriminate. }
  destruct (run_noisy self circuit nm ts w Hnm) as (r & blks & Htr & Hr & _).
  fold o in Htr, Hr. destruct r as [x | cc].
  { destruct Hr as [_ Hr]. congruence. }
  destruct Hr as ([e | vs] & Hloop & Hr); [congruence |].
  rewrite Hres in Hr. injection Hr as ->.
  exists nm, cc, blks, vs. auto using realified.
Qed.

Lemma Forall3_length (A B C : Type) (R : A -> B -> C -> Prop) la lb lc :
  Forall3 R la lb lc -> List.length lc = List.length la.
Proof. induction 1; simpl; congruence. Qed.

Lemma Forall3_map (A B C D : Type) (R : A -> B -> C -> Prop)
    (R' : A -> B -> D -> Prop) (f : C -> D) la lb lc :
  (forall a b c, R a b c -> R' a b (f c)) ->
  Forall3 R la lb lc -> Forall3 R' la lb (map f lc).
Proof. intros HR; induction 1; simpl; constructor; auto. Qed.

(** ** The adapter's properties *)

(** C1.  [get_exact_noisy_expectation_values] raises an exception of its own
    exactly when the simulator's [noise_model] is [None]; the exception is
    then the [RuntimeError] of the precondition check, no library has been
    called (neither the conversion nor the wrapped simulator), and the store
    and the libraries' state are what they were. *)
Theorem noise_model_precondition (self : CirqBasedSimulator) (circuit : loc)
    (terms : list PauliTerm) (w : World) :
  let o := run h (get_exact_noisy_expectation_values self circuit terms) w in
  ((exists e, result o = inl (Raised e)) <-> noise_model self = None) /\
  (noise_model self = None ->
   result o = inl (Raised (RuntimeError noise_model_message)) /\
   trace o = [] /\ final o = w).
Proof.
  intros o. split; [split |].
  - intros [e He]. eapply run_noisy_raised; exact He.
  - intros Hnm. subst o. rewrite (run_noisy_without_model _ _ _ _ Hnm).
    eexists; reflexivity.
  - intros Hnm. subst o. rewrite (run_noisy_without_model _ _ _ _ Hnm).
    auto.
Qed.

(** C3.  In both paths the first library call is the one call of
    [export_to_cirq] (on the circuit with its identities in the
    wavefunction path, on the caller's circuit in the noisy path once the
    noise model is there), and no later call is a conversion: whatever is
    simulated is simulated after it. *)
Theorem single_conversion_before_simulation (self : CirqBasedSimulator)
    (circuit : loc) (w : World) :
  (forall initial_state,
     let o := run h (_get_wavefunction_from_native_circuit
                       self circuit initial_state) w in
     exists r rest,
       trace o = EvExport (padded (store w circuit)) r :: rest /\
       forallb (fun e => negb (is_export e)) rest = true) /\
  (forall terms nm,
     noise_model self = Some nm ->
     let o := run h (get_exact_noisy_expectation_values self circuit terms) w in
     exists r rest,
       trace o = EvExport (store w circuit) r :: rest /\
       forallb (fun e => negb (is_export e)) rest = true).
Proof.
  split.
  - intros initial_state o.
    destruct (run_wavefunction self circuit initial_state w) as [[r Hr] _].
    fold o in Hr. destruct r as [x | cc].
    + destruct Hr as [-> _]. eauto.
    + destruct Hr as (r2 & -> & _). eauto.
  - intros terms nm Hnm o.
    destruct (run_noisy self circuit nm terms w Hnm) as (r & blks & Htr & Hr & _).
    fold o in Htr, Hr. exists r, (List.concat blks). split; [exact Htr |].
    destruct r as [x | cc].
    + destruct Hr as [-> _]. reflexivity.
    + destruct Hr as (res & Hloop & _).
      eapply loop_trace_no_export; eassumption.
Qed.

(** C4.  The adapter makes no simulation result of its own.  The state
    vector the wavefunction path returns is read off the answer of the
    wrapped simulator's [simulate], called on the circuit that
    [export_to_cirq] returned; and every result the noisy path takes a
    density matrix of is the answer of the wrapped simulator's [simulate],
    called just before on what [with_noise] made of the converted circuit. *)
Theorem results_come_from_the_wrapped_simulator (self : CirqBasedSimulator)
    (circuit : loc) (w : World) :
  (forall initial_state v,
     let o := run h (_get_wavefunction_from_native_circuit
                       self circuit initial_state) w in
     result o = inr v ->
     exists cc a res,
       trace o = [EvExport (padded (store w circuit)) (inr cc);
                  EvSimulate (simulator self) a (inr res)] /\
       program a = cc /\ v = final_state_vector res) /\
  (forall terms i res x,
     let o := run h (get_exact_noisy_expectation_values self circuit terms) w in
     nth_error (trace o) i = Some (EvDensity res x) ->
     exists nm cc noisy a pre,
       noise_model self = Some nm /\
       hd_error (trace o) = Some (EvExport (store w circuit) (inr cc)) /\
       firstn i (trace o) =
         pre ++ [EvWithNoise cc (Some nm) (inr noisy);
                 EvSimulate (simulator self) a (inr res)] /\
       program a = noisy).
Proof.
  split.
  - intros initial_state v o Hres.
    destruct (run_wavefunction self circuit initial_state w) as [[r Hr] _].
    fold o in Hr. destruct r as [x | cc].
    + destruct Hr as [_ Hr]. congruence.
    + destruct Hr as ([x | res] & Htr & Hr); [congruence |].
      rewrite Hres in Hr. injection Hr as ->.
      eexists cc, _, res. split; [exact Htr |]. auto.
  - intros terms i res x o Hi.
    destruct (noisy_event_round self circuit terms w i _ Hi eq_refl)
      as (nm & cc & pre0 & b1 & b2 & t & r & Hnm & Hhd & Hpre & Ht).
    apply term_density_context in Ht as (m & noisy & ->).
    exists nm, cc, noisy, (positional_only noisy),
      (EvExport (store w circuit) (inr cc)
         :: pre0 ++ [EvSparse t (n_qubits (store w circuit)) (inr m)]).
    repeat split; try assumption.
    fold o in Hpre. rewrite Hpre. simpl. rewrite <- app_assoc. reflexivity.
Qed.


(** C6.  In the noisy path every call of [simulate] comes right after a call
    of [with_noise] that applied the simulator's noise model to the
    converted circuit, and the circuit simulated is the one [with_noise]
    returned. *)
Theorem noise_applied_before_simulation (self : CirqBasedSimulator)
    (circuit : loc) (terms : list PauliTerm) (w : World) (i : nat)
    (sim : Simulator) (a : SimulateArgs) (r : Exn + SimResult) :
  let o := run h (get_exact_noisy_expectation_values self circuit terms) w in
  nth_error (trace o) i = Some (EvSimulate sim a r) ->
  exists nm cc pre,
    noise_model self = Some nm /\
    hd_error (trace o) = Some (EvExport (store w circuit) (inr cc)) /\
    firstn i (trace o) = pre ++ [EvWithNoise cc (Some nm) (inr (program a))].
Proof.
  intros o Hi.
  destruct (noisy_event_round self circuit terms w i _ Hi eq_refl)
    as (nm & cc & pre0 & b1 & b2 & t & r' & Hnm & Hhd & Hpre & Ht).
  apply term_simulate_context in Ht as (m & noisy & -> & -> & _).
  exists nm, cc,
    (EvExport (store w circuit) (inr cc)
       :: pre0 ++ [EvSparse t (n_qubits (store w circuit)) (inr m)]).
  repeat split; try assumption.
  fold o in Hpre. rewrite Hpre. simpl. rewrite <- app_assoc. reflexivity.
Qed.

(** C7.  Nothing is caught.  In both paths, as soon as a library call raises
    (the conversion, the sparsification, [with_noise], [simulate],
    [density_matrix_of] or the trace), no further call is made and the call
    of the adapter ends with that very exception; and a call of the adapter
    that fails ends with the exception of its last library call, or, in the
    noisy path with no noise model, with the [RuntimeError] of the
    precondition check. *)
Theorem exceptions_propagate_unchanged (self : CirqBasedSimulator)
    (circuit : loc) (w : World) :
  (forall initial_state,
     let o := run h (_get_wavefunction_from_native_circuit
                       self circuit initial_state) w in
     (forall pre e post x,
        trace o = pre ++ e :: post -> raised_by e = Some x ->
        post = [] /\ result o = inl (Propagated x)) /\
     (forall f,
        result o = inl f ->
        exists pre e x,
          trace o = pre ++ [e] /\ raised_by e = Some x /\ f = Propagated x)) /\
  (forall terms,
     let o := run h (get_exact_noisy_expectation_values self circuit terms) w in
     (forall pre e post x,
        trace o = pre ++ e :: post -> raised_by e = Some x ->
        post = [] /\ result o = inl (Propagated x)) /\
     (forall f,
        result o = inl f ->
        (f = Raised (RuntimeError noise_model_message) /\
         noise_model self = None) \/
        (exists pre e x,
           trace o = pre ++ [e] /\ raised_by e = Some x /\ f = Propagated x))).
Proof.
  split.
  - intros initial_state o. split.
    + intros pre e post x. apply run_stops_at_exception.
    + intros f Hres.
      destruct (run_failure_origin _ _ _ _ Hres)
        as [(e & -> & _) | Hlast]; [| exact Hlast].
      destruct (run_wavefunction self circuit initial_state w) as [[r Hr] _].
      fold o in Hr. destruct r as [x | cc].
      * destruct Hr as [_ Hr]. congruence.
      * destruct Hr as ([x | res] & _ & Hr); congruence.
  - intros terms o. split.
    + intros pre e post x. apply run_stops_at_exception.
    + intros f Hres.
      destruct (run_failure_origin _ _ _ _ Hres)
        as [(e & -> & _) | Hlast]; [left | right; exact Hlast].
      pose proof (run_noisy_raised _ _ _ _ _ Hres) as Hnm.
      split; [| exact Hnm].
      subst o. rewrite (run_noisy_without_model _ _ _ _ Hnm) in Hres.
      cbn [result] in Hres. congruence.
Qed.

(** C8.  The circuit that the wavefunction path converts is the caller's
    circuit followed by one identity per qubit index [0 .. n_qubits - 1], in
    that order, with the same number of qubits, so each of its qubits is
    acted on by some operation.  The identities are added to new circuit
    objects, one per identity: every object that was in the store, the
    caller's circuit among them, is left as it was. *)
Theorem identities_added_on_a_new_circuit (self : CirqBasedSimulator)
    (circuit : loc) (initial_state : StateVector) (w : World) :
  circuit < next w ->
  let o := run h (_get_wavefunction_from_native_circuit
                    self circuit initial_state) w in
  let c0 := store w circuit in
  (exists c r rest,
     trace o = EvExport c r :: rest /\
     operations c = operations c0 ++ map I_on (seq 0 (n_qubits c0)) /\
     n_qubits c = n_qubits c0 /\
     (forall q, q < n_qubits c -> active c q)) /\
  store (final o) circuit = c0 /\
  (forall l, l < next w -> store (final o) l = store w l) /\
  next (final o) = next w + n_qubits c0.
Proof.
  intros Hl o c0.
  destruct (run_wavefunction self circuit initial_state w)
    as ([r Hr] & Hframe & Hnext).
  fold o in Hr, Hframe, Hnext. repeat split; auto.
  exists (padded c0), r.
  assert (Hrest : exists rest, trace o = EvExport (padded c0) r :: rest).
  { destruct r as [x | cc].
    - destruct Hr as [-> _]. eauto.
    - destruct Hr as (r2 & -> & _). eauto. }
  destruct Hrest as [rest Hrest]. exists rest.
  auto using padded_operations, padded_n_qubits, padded_active.
Qed.

(** C9, as amended.  When the noisy path returns, its log is the conversion
    followed by one round per term, in order.  A term whose array has one
    element logs the sparsification alone, so the wrapped simulator is not
    called for it, and the value returned for it is the real part of that
    element; every other term logs one [with_noise] and one [simulate] of
    the wrapped simulator, and the value returned for it is the real part of
    the trace. *)
Theorem constant_terms_skip_simulation (self : CirqBasedSimulator)
    (circuit : loc) (terms : list PauliTerm) (w : World)
    (ev : ExpectationValues) :
  let o := run h (get_exact_noisy_expectation_values self circuit terms) w in
  let n := n_qubits (store w circuit) in
  result o = inr ev ->
  exists nm cc blks,
    noise_model self = Some nm /\
    trace o = EvExport (store w circuit) (inr cc) :: List.concat blks /\
    Forall3
      (fun t blk v =>
         exists m,
           (np_size m = 1 /\
            blk = [EvSparse t n (inr m)] /\
            v = np_real (entry m 0 0)) \/
           (np_size m <> 1 /\
            exists noisy res rho x,
              blk = [EvSparse t n (inr m); EvWithNoise cc (Some nm) (inr noisy);
                     EvSimulate (simulator self) (positional_only noisy)
                                (inr res);
                     EvDensity res (inr rho); EvTrace rho m (inr x)] /\
              v = np_real x))
      terms blks (values ev).
Proof.
  intros o n Hres.
  destruct (run_noisy_success self circuit terms w ev Hres)
    as (nm & cc & blks & vs & Hnm & Htr & Hloop & ->).
  exists nm, cc, blks. repeat split; try assumption.
  apply loop_trace_rounds in Hloop.
  eapply Forall3_map; [| exact Hloop].
  intros t blk v Ht. cbv beta in Ht.
  inversion Ht; subst; eexists; [left | right]; repeat split; eauto.
  repeat eexists.
Qed.

(** C10.  When the noisy path returns, it returns as many values as the
    operator has terms, every one of them a float and none complex, and the
    value at each position is the real part of what the round of the term
    at that position appended. *)
Theorem one_real_value_per_term (self : CirqBasedSimulator)
    (circuit : loc) (terms : list PauliTerm) (w : World)
    (ev : ExpectationValues) :
  let o := run h (get_exact_noisy_expectation_values self circuit terms) w in
  result o = inr ev ->
  List.length (values ev) = List.length terms /\
  forallb is_real (values ev) = true /\
  exists nm cc blks vs,
    noise_model self = Some nm /\
    trace o = EvExport (store w circuit) (inr cc) :: List.concat blks /\
    Forall3 (fun t blk v =>
               term_trace (simulator self) (Some nm) (n_qubits (store w circuit))
                          cc t blk (inr v))
            terms blks vs /\
    values ev = map np_real vs.
Proof.
  intros o Hres.
  destruct (run_noisy_success self circuit terms w ev Hres)
    as (nm & cc & blks & vs & Hnm & Htr & Hloop & Hev).
  apply loop_trace_rounds in Hloop.
  split; [| split].
  - rewrite Hev, length_map. eapply Forall3_length; exact Hloop.
  - rewrite Hev. apply forallb_forall. intros v Hv.
    apply in_map_iff in Hv as (u & <- & _). reflexivity.
  - exists nm, cc, blks, vs. auto.
Qed.

(** ** The arguments of [simulate] in the two paths *)

(** The noisy path calls [simulate] with the circuit alone: no resolver, the
    default qubit order, no initial state. *)
Lemma noisy_simulate_arguments (self : CirqBasedSimulator) (circuit : loc)
    (terms : list PauliTerm) (w : World) (i : nat) (sim : Simulator)
    (a : SimulateArgs) (r : Exn + SimResult) :
  let o := run h (get_exact_noisy_expectation_values self circuit terms) w in
  nth_error (trace o) i = Some (EvSimulate sim a r) ->
  sim = simulator self /\ a = positional_only (program a).
Proof.
  intros o Hi.
  destruct (noisy_event_round self circuit terms w i _ Hi eq_refl)
    as (nm & cc & pre0 & b1 & b2 & t & r' & _ & _ & _ & Ht).
  apply term_simulate_context in Ht as (m & noisy & _ & -> & ->).
  auto.
Qed.

(** The wavefunction path hands the stored resolver and qubit order to
    [simulate]. *)
Lemma wavefunction_simulate_arguments (self : CirqBasedSimulator)
    (circuit : loc) (initial_state : StateVector) (w : World) (i : nat)
    (sim : Simulator) (a : SimulateArgs) (r : Exn + SimResult) :
  let o := run h (_get_wavefunction_from_native_circuit
                    self circuit initial_state) w in
  nth_error (trace o) i = Some (EvSimulate sim a r) ->
  sim = simulator self /\
  sa_param_resolver a = param_resolver self /\
  sa_qubit_order a = qubit_order self /\
  sa_initial_state a = Some (np_array_complex64 initial_state).
Proof.
  intros o Hi.
  destruct (run_wavefunction self circuit initial_state w) as [[r0 Hr] _].
  fold o in Hr. destruct r0 as [x | cc].
  - destruct Hr as [Htr _]. rewrite Htr in Hi.
    destruct i as [| [| i]]; discriminate.
  - destruct Hr as (r2 & Htr & _). rewrite Htr in Hi.
    destruct i as [| [| [| i]]]; try discriminate.
    injection Hi as <- <- <-. auto.
Qed.

(** ** Counting the calls of the noisy path *)

Lemma term_trace_sparsified sim nm n cc t blk r :
  term_trace sim nm n cc t blk r -> sparsified blk = [(t, n)].
Proof. destruct 1; reflexivity. Qed.

Lemma term_trace_counts sim nm n cc t blk r :
  term_trace sim nm n cc t blk r ->
  List.length (filter is_sparse blk) = 1 /\
  List.length (filter is_simulate blk) <= 1.
Proof. destruct 1; simpl; auto. Qed.

Lemma loop_trace_sparsified sim nm n cc ts blks res :
  loop_trace sim nm n cc ts blks res ->
  sparsified (List.concat blks) =
    map (fun t => (t, n)) (firstn (List.length blks) ts) /\
  List.length blks <= List.length ts /\
  (forall vs, res = inr vs -> List.length blks = List.length ts).
Proof.
  induction 1 as [| t ts blk e Ht | t ts blk v blks e Ht Hloop IH
                    | t ts blk v blks vs Ht Hloop IH];
    cbn [List.concat List.length firstn map].
  - repeat split; auto.
  - unfold sparsified in *. rewrite app_nil_r.
    apply term_trace_sparsified in Ht. unfold sparsified in Ht.
    rewrite Ht. repeat split; [lia | discriminate].
  - destruct IH as (IH1 & IH2 & _).
    unfold sparsified in *. rewrite flat_map_app, IH1.
    apply term_trace_sparsified in Ht. unfold sparsified in Ht.
    rewrite Ht. repeat split; [lia | discriminate].
  - destruct IH as (IH1 & IH2 & IH3).
    unfold sparsified in *. rewrite flat_map_app, IH1.
    apply term_trace_sparsified in Ht. unfold sparsified in Ht.
    rewrite Ht. repeat split; [lia |].
    intros _ _. rewrite (IH3 vs eq_refl). reflexivity.
Qed.

Lemma loop_trace_counts sim nm n cc ts blks res :
  loop_trace sim nm n cc ts blks res ->
  List.length (filter is_simulate (List.concat blks)) <=
    List.length (filter is_sparse (List.concat blks)) /\
  List.length (filter is_sparse (List.concat blks)) = List.length blks.
Proof.
  induction 1 as [| t ts blk e Ht | t ts blk v blks e Ht Hloop IH
                    | t ts blk v blks vs Ht Hloop IH];
    cbn [List.concat List.length];
    rewrite ?app_nil_r, ?filter_app, ?length_app;
    try (apply term_trace_counts in Ht);
    simpl; lia.
Qed.

(** ** Further properties of the noisy path *)

(** X1.  [get_exact_noisy_expectation_values] leaves the circuit objects
    alone: whether it returns or fails, no object of the store is changed and
    none is created. *)
Theorem noisy_path_leaves_the_store (self : CirqBasedSimulator)
    (circuit : loc) (terms : list PauliTerm) (w : World) :
  let o := run h (get_exact_noisy_expectation_values self circuit terms) w in
  store (final o) = store w /\ next (final o) = next w.
Proof.
  intros o. destruct (noise_model self) as [nm |] eqn:Hnm.
  - destruct (run_noisy self circuit nm terms w Hnm)
      as (r & blks & _ & _ & Hst & Hnx). auto.
  - subst o. rewrite (run_noisy_without_model _ _ _ _ Hnm). auto.
Qed.

(** X2.  The terms handed to [get_sparse_operator] are the first terms of the
    operator, each once and in the operator's order, always with the
    circuit's number of qubits; they are all the terms when the call
    returns. *)
Theorem terms_sparsified_in_order (self : CirqBasedSimulator)
    (circuit : loc) (terms : list PauliTerm) (w : World) :
  let o := run h (get_exact_noisy_expectation_values self circuit terms) w in
  let n := n_qubits (store w circuit) in
  exists k,
    k <= List.length terms /\
    sparsified (trace o) = map (fun t => (t, n)) (firstn k terms) /\
    match result o with
    | inr _ => k = List.length terms
    | inl _ => True
    end.
Proof.
  intros o n. destruct (noise_model self) as [nm |] eqn:Hnm.
  2:{ subst o. rewrite (run_noisy_without_model _ _ _ _ Hnm).
      exists 0. simpl. repeat split. lia. }
  destruct (run_noisy self circuit nm terms w Hnm)
    as (r & blks & Htr & Hr & _).
  fold o in Htr, Hr. rewrite Htr. destruct r as [x | cc].
  - destruct Hr as [-> ->]. exists 0. simpl. repeat split. lia.
  - destruct Hr as (res & Hloop & ->).
    destruct (loop_trace_sparsified _ _ _ _ _ _ _ Hloop) as (Hsp & Hle & Hall).
    exists (List.length blks). repeat split; try assumption.
    destruct res as [e | vs]; [exact Logic.I | apply (Hall vs eq_refl)].
Qed.

(** X3.  The wrapped simulator is called at most once per sparsified term,
    and no more terms are sparsified than the operator has. *)
Theorem simulations_bounded_by_terms (self : CirqBasedSimulator)
    (circuit : loc) (terms : list PauliTerm) (w : World) :
  let o := run h (get_exact_noisy_expectation_values self circuit terms) w in
  List.length (filter is_simulate (trace o)) <=
    List.length (filter is_sparse (trace o)) /\
  List.length (filter is_sparse (trace o)) <= List.length terms.
Proof.
  intros o. destruct (noise_model self) as [nm |] eqn:Hnm.
  2:{ subst o. rewrite (run_noisy_without_model _ _ _ _ Hnm). simpl. lia. }
  destruct (run_noisy self circuit nm terms w Hnm)
    as (r & blks & Htr & Hr & _).
  fold o in Htr, Hr. rewrite Htr. destruct r as [x | cc].
  - destruct Hr as [-> _]. simpl. lia.
  - destruct Hr as (res & Hloop & _).
    destruct (loop_trace_counts _ _ _ _ _ _ _ Hloop) as (H1 & H2).
    destruct (loop_trace_sparsified _ _ _ _ _ _ _ Hloop) as (_ & H3 & _).
    simpl. lia.
Qed.

(** X4.  For an operator with no terms and a simulator with a noise model,
    the circuit is converted all the same, nothing else is called, and the
    result is the empty list of values, or the exception of the
    conversion. *)
Theorem operator_without_terms (self : CirqBasedSimulator) (circuit : loc)
    (w : World) (nm : NoiseModel) :
  noise_model self = Some nm ->
  let o := run h (get_exact_noisy_expectation_values self circuit []) w in
  exists r,
    trace o = [EvExport (store w circuit) r] /\
    result o = match r with
               | inl x => inl (Propagated x)
               | inr _ => inr {| values := [] |}
               end.
Proof.
  intros Hnm o.
  destruct (run_noisy self circuit nm [] w Hnm) as (r & blks & Htr & Hr & _).
  fold o in Htr, Hr. exists r. destruct r as [x | cc].
  - destruct Hr as [-> ->]. auto.
  - destruct Hr as (res & Hloop & ->).
    inversion Hloop; subst. auto.
Qed.

(** X5.  In the noisy path it is the wrapped simulator that simulates, and
    it is given no initial state: the method takes none from its caller, so
    every simulation starts from the backend's own initial state. *)
Theorem noisy_path_simulates_from_the_default_state
    (self : CirqBasedSimulator) (circuit : loc) (terms : list PauliTerm)
    (w : World) (i : nat) (sim : Simulator) (a : SimulateArgs)
    (r : Exn + SimResult) :
  let o := run h (get_exact_noisy_expectation_values self circuit terms) w in
  nth_error (trace o) i = Some (EvSimulate sim a r) ->
  sim = simulator self /\ sa_initial_state a = None.
Proof.
  intros o Hi.
  destruct (noisy_event_round self circuit terms w i _ Hi eq_refl)
    as (nm & cc & pre0 & b1 & b2 & t & r' & _ & _ & _ & Ht).
  apply term_simulate_context in Ht as (m & noisy & _ & -> & ->).
  auto.
Qed.

(** ** Further properties of the wavefunction path *)



(** X8.  A circuit with no qubits gets no identity: the wavefunction path
    converts the caller's circuit as it is, and creates and changes no
    circuit object. *)
Theorem circuit_without_qubits_converted_as_is (self : CirqBasedSimulator)
    (circuit : loc) (initial_state : StateVector) (w : World) :
  n_qubits (store w circuit) = 0 ->
  let o := run h (_get_wavefunction_from_native_circuit
                    self circuit initial_state) w in
  (exists r rest, trace o = EvExport (store w circuit) r :: rest) /\
  store (final o) = store w /\ next (final o) = next w.
Proof.
  intros Hn o. subst o. unfold _get_wavefunction_from_native_circuit.
  cbn [deref bind run]. rewrite Hn. cbn [seq add_identities bind run call].
  destruct (h _ (export_to_cirq (store w circuit)) (libs w)) as [s1 [x | cc]];
    cbn [logged final trace result with_libs store next].
  { cbn [event_of]. repeat split. eauto. }
  match goal with
  | |- context [h _ (simulate ?s ?args) ?st] =>
      destruct (h _ (simulate s args) st) as [s2 [x | res]]
  end; cbn [logged final trace result with_libs store next event_of];
    repeat split; eauto.
Qed.

(** X9.  Identities do not pile up.  Two calls of the wavefunction path on
    the same circuit object, one after the other, convert the same circuit:
    the second call does not see the identities the first one added. *)
Theorem repeated_calls_convert_the_same_circuit (self : CirqBasedSimulator)
    (circuit : loc) (state1 state2 : StateVector) (w : World) :
  circuit < next w ->
  let o1 := run h (_get_wavefunction_from_native_circuit
                     self circuit state1) w in
  let o2 := run h (_get_wavefunction_from_native_circuit
                     self circuit state2) (final o1) in
  exists c r1 rest1 r2 rest2,
    trace o1 = EvExport c r1 :: rest1 /\
    trace o2 = EvExport c r2 :: rest2 /\
    operations c =
      operations (store w circuit)
        ++ map I_on (seq 0 (n_qubits (store w circuit))).
Proof.
  intros Hl o1 o2.
  destruct (run_wavefunction self circuit state1 w) as ([r1 Hr1] & Hframe & _).
  destruct (run_wavefunction self circuit state2 (final o1)) as ([r2 Hr2] & _).
  fold o1 in Hr1, Hframe. fold o1 o2 in Hr2.
  rewrite (Hframe circuit Hl) in Hr2.
  exists (padded (store w circuit)), r1.
  assert (H1 : exists rest, trace o1 = EvExport (padded (store w circuit)) r1 :: rest).
  { destruct r1 as [x | cc].
    - destruct Hr1 as [-> _]. eauto.
    - destruct Hr1 as (r & -> & _). eauto. }
  assert (H2 : exists rest, trace o2 = EvExport (padded (store w circuit)) r2 :: rest).
  { destruct r2 as [x | cc].
    - destruct Hr2 as [-> _]. eauto.
    - destruct Hr2 as (r & -> & _). eauto. }
  destruct H1 as [rest1 H1]. destruct H2 as [rest2 H2].
  exists rest1, r2, rest2. auto using padded_operations.
Qed.

(** X10.  A call of the wavefunction path does not change what a later call
    of the noisy path converts: the noisy path still converts the caller's
    circuit, without the identities, and sparsifies for the same number of
    qubits. *)
Theorem noisy_path_after_wavefunction_path (self : CirqBasedSimulator)
    (circuit : loc) (initial_state : StateVector) (terms : list PauliTerm)
    (w : World) (nm : NoiseModel) :
  circuit < next w ->
  noise_model self = Some nm ->
  let o1 := run h (_get_wavefunction_from_native_circuit
                     self circuit initial_state) w in
  let o2 := run h (get_exact_noisy_expectation_values self circuit terms)
                (final o1) in
  exists r rest,
    trace o2 = EvExport (store w circuit) r :: rest /\
    forall t n x, In (EvSparse t n x) rest -> n = n_qubits (store w circuit).
Proof.
  intros Hl Hnm o1 o2.
  destruct (run_wavefunction self circuit initial_state w) as (_ & Hframe & _).
  fold o1 in Hframe.
  destruct (run_noisy self circuit nm terms (final o1) Hnm)
    as (r & blks & Htr & Hr & _).
  fold o2 in Htr, Hr. rewrite (Hframe circuit Hl) in Htr, Hr.
  exists r, (List.concat blks). split; [exact Htr |].
  intros t n x Hin. destruct r as [y | cc].
  - destruct Hr as [-> _]. destruct Hin.
  - destruct Hr as (res & Hloop & _).
    apply in_split in Hin as (pre & post & Hsplit).
    destruct (loop_trace_split _ _ _ _ _ _ _ _ _ _ Hloop Hsplit)
      as (pre0 & b1 & b2 & post0 & t' & r' & _ & _ & Ht).
    remember (b1 ++ EvSparse t n x :: b2) as blk eqn:Hb.
    destruct Ht; find_event Hb; reflexivity.
Qed.

(** ** The constructor's defaults *)

(** X11.  A simulator built with no parameter resolver and no qubit order
    calls [simulate] with no resolver and the default qubit order in both
    paths: with the constructor's defaults the two paths simulate under the
    same settings. *)
Theorem default_settings_reach_both_paths (sim0 : Simulator)
    (nm : option NoiseModel) (circuit : loc) (initial_state : StateVector)
    (terms : list PauliTerm) (w : World) (i : nat) (sim : Simulator)
    (a : SimulateArgs) (r : Exn + SimResult) :
  let self := init sim0 nm None None in
  let o1 := run h (_get_wavefunction_from_native_circuit
                     self circuit initial_state) w in
  let o2 := run h (get_exact_noisy_expectation_values self circuit terms) w in
  nth_error (trace o1) i = Some (EvSimulate sim a r) \/
  nth_error (trace o2) i = Some (EvSimulate sim a r) ->
  sim = sim0 /\
  sa_param_resolver a = None /\
  sa_qubit_order a = QubitOrder_DEFAULT.
Proof.
  intros self o1 o2 [Hi | Hi].
  - destruct (run_wavefunction self circuit initial_state w) as [[r0 Hr] _].
    fold o1 in Hr. destruct r0 as [x | cc].
    + destruct Hr as [Htr _]. rewrite Htr in Hi.
      destruct i as [| [| i]]; discriminate.
    + destruct Hr as (r2 & Htr & _). rewrite Htr in Hi.
      destruct i as [| [| [| i]]]; try discriminate.
      injection Hi as <- <- <-. auto.
  - destruct (noisy_event_round self circuit terms w i _ Hi eq_refl)
      as (nm' & cc & pre0 & b1 & b2 & t & r' & _ & _ & _ & Ht).
    apply term_simulate_context in Ht as (m & noisy & _ & -> & ->).
    auto.
Qed.

End Semantics.

(** * The adapter at work on the small implementation *)

Import Toy.
Local Open Scope string_scope.
Local Open Scope list_scope.

(** C2.  The resolver that the simulator was built with does not reach the
    wrapped simulator in the noisy path.  On a circuit with the symbolic
    parameter [theta] and a simulator built with a resolver for [theta], the
    wavefunction path calls [simulate] with that resolver, and the noisy path
    calls it with no resolver at all. *)
Theorem noisy_path_ignores_param_resolver :
  let wavefunction :=
    run Toy.handler
        (_get_wavefunction_from_native_circuit Toy.noisy 0 [1; 0; 0; 0])
        Toy.world in
  let expectation :=
    run Toy.handler
        (get_exact_noisy_expectation_values Toy.noisy 0 ["Z0"]) Toy.world in
  param_resolver Toy.noisy = Some [("theta", 1)] /\
  nth_error (trace wavefunction) 1 =
    Some (EvSimulate "density-matrix-simulator"
            {| program := ["RX(theta)"; "I"; "I"];
               sa_param_resolver := Some [("theta", 1)];
               sa_qubit_order := [];
               sa_initial_state := Some [1; 0; 0; 0] |}
            (inr [3])) /\
  nth_error (trace expectation) 3 =
    Some (EvSimulate "density-matrix-simulator"
            {| program := ["RX(theta)"; "depolarize"];
               sa_param_resolver := None;
               sa_qubit_order := [];
               sa_initial_state := None |}
            (inr [2])) /\
  List.length (filter is_simulate (trace expectation)) = 1.
Proof. repeat split. Qed.

Lemma single_conversion_before_simulation_witness :
  let o := run Toy.handler
               (get_exact_noisy_expectation_values Toy.noisy 0 ["Z0"])
               Toy.world in
  exists r rest,
    trace o = EvExport (store Toy.world 0) r :: rest /\
    forallb (fun e => negb (is_export e)) rest = true.
Proof.
  exact (proj2 (single_conversion_before_simulation
                  Toy.handler Toy.noisy 0 Toy.world)
               ["Z0"] "depolarize" eq_refl).
Defined.

Lemma results_come_from_the_wrapped_simulator_witness :
  let o := run Toy.handler
               (get_exact_noisy_expectation_values Toy.noisy 0 ["Z0"])
               Toy.world in
  exists nm cc noisy a pre,
    noise_model Toy.noisy = Some nm /\
    hd_error (trace o) = Some (EvExport (store Toy.world 0) (inr cc)) /\
    firstn 4 (trace o) =
      pre ++ [EvWithNoise cc (Some nm) (inr noisy);
              EvSimulate (simulator Toy.noisy) a (inr [2])] /\
    program a = noisy.
Proof.
  exact (proj2 (results_come_from_the_wrapped_simulator
                  Toy.handler Toy.noisy 0 Toy.world)
               ["Z0"] 4 [2] (inr [2]) eq_refl).
Defined.


Lemma noise_applied_before_simulation_witness :
  let o := run Toy.handler
               (get_exact_noisy_expectation_values Toy.noisy 0 ["Z0"])
               Toy.world in
  exists nm cc pre,
    noise_model Toy.noisy = Some nm /\
    hd_error (trace o) = Some (EvExport (store Toy.world 0) (inr cc)) /\
    firstn 3 (trace o) =
      pre ++ [EvWithNoise cc (Some nm) (inr ["RX(theta)"; "depolarize"])].
Proof.
  exact (noise_applied_before_simulation
           Toy.handler Toy.noisy 0 ["Z0"] Toy.world 3
           "density-matrix-simulator"
           (positional_only ["RX(theta)"; "depolarize"]) (inr [2]) eq_refl).
Defined.

(** The simulation of the circuit at location 2 raises; so does the call of
    the adapter, with the same exception. *)
Lemma exceptions_propagate_unchanged_witness :
  let o := run Toy.handler
               (_get_wavefunction_from_native_circuit Toy.noiseless 2 [1; 0])
               Toy.world in
  @nil Event = [] /\ result o = inl (Propagated "SimulatorError").
Proof.
  exact (proj1 (proj1 (exceptions_propagate_unchanged
                         Toy.handler Toy.noiseless 2 Toy.world) [1; 0])
               [EvExport (padded Toy.crashing) (inr ["crash"; "I"])]
               (EvSimulate "simulator"
                  {| program := ["crash"; "I"];
                     sa_param_resolver := Some [("theta", 1)];
                     sa_qubit_order := [];
                     sa_initial_state := Some [1; 0] |}
                  (inl "SimulatorError"))
               [] "SimulatorError" eq_refl eq_refl).
Defined.

Lemma identities_added_on_a_new_circuit_witness :
  let o := run Toy.handler
               (_get_wavefunction_from_native_circuit Toy.noisy 0 [1; 0; 0; 0])
               Toy.world in
  (exists c r rest,
     trace o = EvExport c r :: rest /\
     operations c = operations Toy.rx_theta ++ map I_on (seq 0 2) /\
     n_qubits c = 2 /\
     (forall q, q < n_qubits c -> active c q)) /\
  store (final o) 0 = Toy.rx_theta /\
  (forall l, l < 3 -> store (final o) l = store Toy.world l) /\
  next (final o) = 3 + 2.
Proof.
  exact (identities_added_on_a_new_circuit
           Toy.handler Toy.noisy 0 [1; 0; 0; 0] Toy.world
           (le_S 1 2 (le_S 1 1 (le_n 1)))).
Defined.

(** C9, as stated, fails.  On the empty circuit the array of the term with
    the coefficient [i] has the one element [i]; the value returned for the
    term is [0.0], which is not that element. *)
Lemma constant_term_not_returned_unchanged :
  let o := run Toy.handler
               (get_exact_noisy_expectation_values Toy.noisy 1 ["1j"])
               Toy.world in
  exists (m : @ndarray Toy.libraries) (v : @scalar Toy.libraries),
    trace o = [EvExport Toy.empty (inr []); EvSparse "1j" 0 (inr m)] /\
    np_size m = 1 /\
    entry m 0 0 = SComplex 0 1 /\
    result o = inr {| values := [v] |} /\
    v = SFloat 0 /\
    to_complex v <> to_complex (entry m 0 0).
Proof.
  exists (Toy.sparse "1j" 0), (@SFloat Toy.libraries 0).
  repeat split. discriminate.
Qed.

Lemma constant_terms_skip_simulation_witness :
  let o := run Toy.handler
               (get_exact_noisy_expectation_values Toy.noisy 1 ["1j"; "Z0"])
               Toy.world in
  exists nm cc blks,
    noise_model Toy.noisy = Some nm /\
    trace o = EvExport Toy.empty (inr cc) :: List.concat blks /\
    Forall3
      (fun t blk v =>
         exists m,
           (np_size m = 1 /\
            blk = [EvSparse t 0 (inr m)] /\
            v = np_real (entry m 0 0)) \/
           (np_size m <> 1 /\
            exists noisy res rho x,
              blk = [EvSparse t 0 (inr m); EvWithNoise cc (Some nm) (inr noisy);
                     EvSimulate (simulator Toy.noisy) (positional_only noisy)
                                (inr res);
                     EvDensity res (inr rho); EvTrace rho m (inr x)] /\
              v = np_real x))
      ["1j"; "Z0"] blks [SFloat 0; SFloat 1].
Proof.
  exact (constant_terms_skip_simulation
           Toy.handler Toy.noisy 1 ["1j"; "Z0"] Toy.world
           {| values := [SFloat 0; SFloat 1] |} eq_refl).
Defined.

Lemma one_real_value_per_term_witness :
  let o := run Toy.handler
               (get_exact_noisy_expectation_values Toy.noisy 0 ["Z0"; "1j"])
               Toy.world in
  List.length [SFloat 2; SFloat 2] = List.length ["Z0"; "1j"] /\
  forallb is_real [SFloat 2; SFloat 2] = true /\
  exists nm cc blks vs,
    noise_model Toy.noisy = Some nm /\
    trace o = EvExport Toy.rx_theta (inr cc) :: List.concat blks /\
    Forall3 (fun t blk v =>
               term_trace (simulator Toy.noisy) (Some nm) 2 cc t blk (inr v))
            ["Z0"; "1j"] blks vs /\
    [SFloat 2; SFloat 2] = map np_real vs.
Proof.
  exact (one_real_value_per_term
           Toy.handler Toy.noisy 0 ["Z0"; "1j"] Toy.world
           {| values := [SFloat 2; SFloat 2] |} eq_refl).
Defined.

Lemma operator_without_terms_witness :
  let o := run Toy.handler
               (get_exact_noisy_expectation_values Toy.noisy 0 [])
               Toy.world in
  exists r,
    trace o = [EvExport Toy.rx_theta r] /\
    result o = match r with
               | inl x => inl (Propagated x)
               | inr _ => inr {| values := [] |}
               end.
Proof.
  exact (operator_without_terms
           Toy.handler Toy.noisy 0 Toy.world "depolarize" eq_refl).
Defined.

Lemma noisy_path_simulates_from_the_default_state_witness :
  "density-matrix-simulator" = simulator Toy.noisy /\
  sa_initial_state (positional_only ["RX(theta)"; "depolarize"]) = None.
Proof.
  exact (noisy_path_simulates_from_the_default_state
           Toy.handler Toy.noisy 0 ["Z0"] Toy.world 3
           "density-matrix-simulator"
           (positional_only ["RX(theta)"; "depolarize"]) (inr [2]) eq_refl).
Defined.


Lemma circuit_without_qubits_converted_as_is_witness :
  let o := run Toy.handler
               (_get_wavefunction_from_native_circuit Toy.noisy 1 [1])
               Toy.world in
  (exists r rest, trace o = EvExport Toy.empty r :: rest) /\
  store (final o) = store Toy.world /\ next (final o) = 3.
Proof.
  exact (circuit_without_qubits_converted_as_is
           Toy.handler Toy.noisy 1 [1] Toy.world eq_refl).
Defined.

Lemma repeated_calls_convert_the_same_circuit_witness :
  let o1 := run Toy.handler
                (_get_wavefunction_from_native_circuit Toy.noisy 0 [1; 0; 0; 0])
                Toy.world in
  let o2 := run Toy.handler
                (_get_wavefunction_from_native_circuit Toy.noisy 0 [0; 1; 0; 0])
                (final o1) in
  exists c r1 rest1 r2 rest2,
    trace o1 = EvExport c r1 :: rest1 /\
    trace o2 = EvExport c r2 :: rest2 /\
    operations c = operations Toy.rx_theta ++ map I_on (seq 0 2).
Proof.
  exact (repeated_calls_convert_the_same_circuit
           Toy.handler Toy.noisy 0 [1; 0; 0; 0] [0; 1; 0; 0] Toy.world
           (le_S 1 2 (le_S 1 1 (le_n 1)))).
Defined.

Lemma noisy_path_after_wavefunction_path_witness :
  let o1 := run Toy.handler
                (_get_wavefunction_from_native_circuit Toy.noisy 0 [1; 0; 0; 0])
                Toy.world in
  let o2 := run Toy.handler
                (get_exact_noisy_expectation_values Toy.noisy 0 ["Z0"])
                (final o1) in
  exists r rest,
    trace o2 = EvExport Toy.rx_theta r :: rest /\
    forall t n x, In (EvSparse t n x) rest -> n = 2.
Proof.
  exact (noisy_path_after_wavefunction_path
           Toy.handler Toy.noisy 0 [1; 0; 0; 0] ["Z0"] Toy.world "depolarize"
           (le_S 1 2 (le_S 1 1 (le_n 1))) eq_refl).
Defined.

Lemma default_settings_reach_both_paths_witness :
  "simulator" = "simulator" /\
  sa_param_resolver (positional_only ["RX(theta)"; "depolarize"]) = None /\
  sa_qubit_order (positional_only ["RX(theta)"; "depolarize"]) =
    QubitOrder_DEFAULT.
Proof.
  exact (default_settings_reach_both_paths
           Toy.handler "simulator" (Some "depolarize") 0 [1; 0; 0; 0] ["Z0"]
           Toy.world 3 "simulator"
           (positional_only ["RX(theta)"; "depolarize"]) (inr [2])
           (or_intror eq_refl)).
Defined.
